(** * Breathly: the exercise circle and the interval hook

    A shallow embedding of [src/components/Exercise/ExerciseCircle.tsx]
    and of the [useInterval] hook, with the properties their
    specification states about them.

    Conventions of the embedding:
    - JavaScript numbers that hold durations, elapsed times and animation
      targets are integer valued in this program and are modelled as [Z];
    - arrays are lists, an index read [a[i]] is the list lookup [a !! i],
      and reading a field of the [undefined] that an out-of-range index
      read yields raises a [TypeError];
    - a call that the component makes on the outside world (a sound, an
      animation start, a state setter, a timer registration) is an entry of
      an effect trace, in program order. *)

From Stdlib Require Import ZArith String List Lia.
From stdpp Require Import base option list gmap.
Import ListNotations.

Local Open Scope Z_scope.

#[local] Set Warnings "-register-all".

(** ** Steps *)

(** Modelled from the spec: the [Step] type of [types/Step], which the
    component imports; the spec gives it as
    [{ id, duration, skipped, showDots, label }]. *)
Inductive StepId : Type := inhale | afterInhale | exhale | afterExhale.

Record Step : Type := mkStep {
  id : StepId;
  duration : Z;
  skipped : bool;
  showDots : bool;
  label : string
}.

#[global] Instance StepId_eq_dec : EqDecision StepId.
Proof. solve_decision. Defined.

(** [const activeSteps = steps.filter((x) => !x.skipped);] *)
Definition activeSteps (steps : list Step) : list Step :=
  filter (λ x : Step, negb (skipped x)) steps.

(** The derivation as the specification words it: the input with every
    entry whose [skipped] flag is set removed. *)
Fixpoint remove_skipped (steps : list Step) : list Step :=
  match steps with
  | [] => []
  | x :: rest =>
      if skipped x then remove_skipped rest else x :: remove_skipped rest
  end.

(** *** Arrays in the store

    [steps] is a JavaScript array, an object that the caller keeps a
    reference to.  [Array.prototype.filter] allocates the array it returns
    and writes to no other. *)
Abbreviation ArrayRef := nat (only parsing).

Definition array_filter (p : Step → bool) (r : ArrayRef)
    (h : gmap nat (list Step)) : option (ArrayRef * gmap nat (list Step)) :=
  match h !! r with
  | None => None
  | Some arr =>
      let r' := fresh (dom h) in
      Some (r', <[r' := filter (λ x : Step, p x) arr]> h)
  end.

(** The derivation of line 46 run against the store. *)
Definition derive_activeSteps (r : ArrayRef) (h : gmap nat (list Step))
    : option (ArrayRef * gmap nat (list Step)) :=
  array_filter (λ x, negb (skipped x)) r h.

(** ** Animations

    The four animated values the component creates with [useState]. *)
Inductive AnimatedValue : Type :=
  showUpAnimVal | scaleAnimVal | textAnimVal | circleMinAnimVal.

(** The composite animations of React Native's [Animated] that the
    component builds.  [timing] is one value moving to [toValue] in
    [duration] milliseconds. *)
Inductive Animation : Type :=
  | timing (value : AnimatedValue) (toValue duration : Z)
  | delay (time : Z)
  | sequence (animations : list Animation)
  | parallel (animations : list Animation).

(** [Animated.stagger(time, animations)] is, in React Native,
    [parallel(animations.map((a, i) => sequence([delay(time * i), a])))]. *)
Definition stagger (time : Z) (animations : list Animation) : Animation :=
  parallel (imap (λ i a, sequence [delay (time * Z.of_nat i); a]) animations).

(** Modelled from the spec: the [animate] helper of [utils/animate], which
    wraps one timed transition of a value over a duration. *)
Definition animate (value : AnimatedValue) (toValue duration : Z) : Animation :=
  timing value toValue duration.




Definition fadeInAnimDuration : Z := 400.

(** [animateStep], lines 49-67. *)
Definition animateStep (toValue duration : Z) : Animation :=
  let textDuration := fadeInAnimDuration in
  stagger (duration - textDuration)
    [ parallel [ animate scaleAnimVal toValue duration;
                 animate textAnimVal 1 textDuration ];
      animate textAnimVal 0 textDuration ].

Definition showCircleMinAnimation : Animation :=
  animate circleMinAnimVal 1 fadeInAnimDuration.

Definition hideCircleMinAnimation : Animation :=
  animate circleMinAnimVal 0 fadeInAnimDuration.

Definition showUpAnimation : Animation :=
  animate showUpAnimVal 1 fadeInAnimDuration.

(** ** Effects and runs *)

(** What a handler does to the outside world, in program order. *)
Inductive Effect : Type :=
  | call_onStepStart (stepIndex : nat)
  | setCurrentStepIndex (stepIndex : nat)
  | playSound (cue : string)
  | start (a : Animation)
  | stop (a : Animation)
  | call_onClosePress (isBreathingDone : bool).

(** A run of JavaScript code: the effects it performed, and its value, or
    [None] when it threw a [TypeError]. *)
Definition Run (A : Type) : Type := (list Effect * option A)%type.

Definition ret {A} (a : A) : Run A := ([], Some a).

Definition throwTypeError {A} : Run A := ([], None).

Definition bind {A B} (m : Run A) (k : A → Run B) : Run B :=
  match m with
  | (t, Some a) => let '(t', r) := k a in (t ++ t', r)
  | (t, None) => (t, None)
  end.

Definition emit (e : Effect) : Run unit := ([e], Some tt).

(** Reading a field of [o]: of an object, or of [undefined]. *)
Definition field_of {A B} (o : option A) (f : A → B) : Run B :=
  match o with
  | Some x => ret (f x)
  | None => throwTypeError
  end.

#[global] Instance Run_ret : MRet Run := @ret.
#[global] Instance Run_bind : MBind Run := λ A B k m, bind m k.

Definition trace_of {A} (m : Run A) : list Effect := fst m.
Definition value_of {A} (m : Run A) : option A := snd m.

(** The indices [onStepStart] was invoked with, read off a trace. *)
Definition onStepStart_calls (t : list Effect) : list nat :=
  omap (λ e, match e with call_onStepStart i => Some i | _ => None end) t.

(** The sound cues played, read off a trace. *)
Definition sounds (t : list Effect) : list string :=
  omap (λ e, match e with playSound cue => Some cue | _ => None end) t.

(** ** The step sequencer

    [loopAnimations] of [utils/loopAnimations] is imported by the
    component and is not among the sources.  The specification (4.3)
    gives it as a state machine over [Idle], [PlayingStep i] and
    [Stopped], driven by [start()], by the completion reports of the step
    animations and by [stop()]; the definitions of this section follow
    it. *)

(** Modelled from the spec: the states of the sequencer of
    [utils/loopAnimations]. *)
Inductive SequencerState : Type := Idle | PlayingStep (i : nat) | Stopped.

Section loopAnimations.
Variable animations : list Animation.
Variable onStepStart : nat → Run unit.

(** Modelled from the spec: entering step [i] in [utils/loopAnimations],
    the callback first, then the animation. *)
Definition begin_step (i : nat) : Run SequencerState :=
  emit (call_onStepStart i);;
  onStepStart i;;
  a ← field_of (animations !! i) (λ a, a);
  emit (start a);;
  ret (PlayingStep i).

(** Modelled from the spec: the start of [utils/loopAnimations],
    [Idle → PlayingStep 0] on [start()]. *)
Definition loop_start : Run SequencerState := begin_step 0.

(** Modelled from the spec: the completion callback of
    [utils/loopAnimations].  Step [i]'s animation reports [finished];
    [PlayingStep i → PlayingStep ((i+1) mod N)] fires only on
    [finished = true] of the step being played, and a report that arrives
    after [stop()] is ignored. *)
Definition loop_completed (s : SequencerState) (i : nat) (finished : bool)
    : Run SequencerState :=
  match s with
  | PlayingStep j =>
      if finished && bool_decide (i = j)
      then begin_step ((j + 1) `mod` length animations)%nat
      else ret s
  | Idle | Stopped => ret s
  end.

(** Modelled from the spec: the stop function that
    [utils/loopAnimations] returns.  [PlayingStep i → Stopped] on
    [stop()], which stops the animation in flight; stopping a stopped
    sequencer does nothing. *)
Definition loop_stop (s : SequencerState) : Run SequencerState :=
  match s with
  | PlayingStep i =>
      match animations !! i with
      | Some a => emit (stop a)
      | None => ret tt
      end;;
      ret Stopped
  | Idle | Stopped => ret Stopped
  end.
End loopAnimations.

(** ** The exercise circle *)

(** What the component holds: its props, the [currentStepIndex] state, and
    the sequencer that [cleanUpAnimationsSteps] stops ([Idle] while that
    variable is still unassigned). *)
Record Component : Type := mkComponent {
  steps : list Step;
  elapsedTime : Z;
  minimumElapsedTime : Z;
  currentStepIndex : nat;
  sequencer : SequencerState
}.

(** What the platform delivers to the mounted component. *)
Inductive Event : Type :=
  | showUpCompleted (finished : bool)
  | stepCompleted (i : nat) (finished : bool)
  | unmount
  | closePress.

(** [onStepStart], lines 84-109. *)
Definition onStepStart (steps : list Step) (stepIndex : nat) : Run unit :=
  emit (setCurrentStepIndex stepIndex);;
  let step := activeSteps steps !! stepIndex in
  step_id ← field_of step id;
  match step_id with
  | exhale =>
      emit (playSound "lauraBreatheOut"%string);;
      emit (start showCircleMinAnimation)
  | inhale =>
      emit (playSound "lauraBreatheIn"%string);;
      emit (start hideCircleMinAnimation)
  | afterExhale =>
      emit (playSound "lauraHold"%string);;
      emit (start hideCircleMinAnimation)
  | afterInhale =>
      emit (playSound "lauraHold"%string)
  end.

(** [createStepAnimations], lines 112-118. *)
Definition createStepAnimations (steps : list Step) : list Animation :=
  (λ x,
     animateStep
       (if bool_decide (id x = inhale) || bool_decide (id x = afterInhale)
        then 1 else 0)
       (duration x))
  <$> activeSteps steps.

(** [startAnimationSteps], lines 111-121. *)
Definition startAnimationSteps (steps : list Step) : Run SequencerState :=
  loop_start (createStepAnimations steps) (onStepStart steps).

(** What the render shows of the current step, lines 185-190. *)
Record View : Type := mkView {
  text : string;
  dots_visible : bool;
  dots_totalDuration : Z
}.

(** [currentStep], line 47, and the reads of its fields in the render. *)
Definition render (c : Component) : Run View :=
  let currentStep := activeSteps (steps c) !! currentStepIndex c in
  l ← field_of currentStep label;
  v ← field_of currentStep showDots;
  d ← field_of currentStep duration;
  ret (mkView l v d).

(** [setCurrentStepIndex] takes effect on the state when the handler that
    called it returns: the last index set, if any. *)
Definition state_after (t : list Effect) (current : nat) : nat :=
  fold_left
    (λ cur e, match e with setCurrentStepIndex i => i | _ => cur end)
    t current.

(** The component after a run of its sequencer. *)
Definition with_sequencer (c : Component) (r : Run SequencerState)
    : Run Component :=
  s ← r;
  ret (mkComponent (steps c) (elapsedTime c) (minimumElapsedTime c)
         (state_after (trace_of r) (currentStepIndex c)) s).

(** The clean-up that [useOnMount] returns, lines 130-135. *)
Definition cleanup (c : Component) : Run Component :=
  c' ← match sequencer c with
        | Idle => ret c
        | s => with_sequencer c (loop_stop (createStepAnimations (steps c)) s)
        end;
  emit (stop showUpAnimation);;
  emit (stop showCircleMinAnimation);;
  emit (stop hideCircleMinAnimation);;
  ret c'.

(** The close handler, lines 195-198. *)
Definition onClosePress_handler (c : Component) : Run Component :=
  let isBreathingDone := elapsedTime c * 1000 >=? minimumElapsedTime c in
  emit (call_onClosePress isBreathingDone);;
  ret c.

(** The component's reaction to an event.  [useOnMount] of
    [hooks/useOnMount] is not among the sources; by the specification
    (4.4) its argument runs once on mount and the function that argument
    returns runs on unmount. *)
Definition handle (c : Component) (ev : Event) : Run Component :=
  match ev with
  | showUpCompleted finished =>
      if finished then with_sequencer c (startAnimationSteps (steps c))
      else ret c
  | stepCompleted i finished =>
      with_sequencer c
        (loop_completed (createStepAnimations (steps c)) (onStepStart (steps c))
           (sequencer c) i finished)
  | unmount => cleanup c
  | closePress => onClosePress_handler c
  end.

(** The first render and the body of [useOnMount], lines 123-129. *)
Definition mount (steps : list Step) (elapsedTime minimumElapsedTime : Z)
    : Run Component :=
  let c := mkComponent steps elapsedTime minimumElapsedTime 0 Idle in
  render c;;
  emit (start showUpAnimation);;
  ret c.

(** The events handled one after the other; a handler that throws ends
    the run. *)
Fixpoint run (c : Component) (evs : list Event) : Run Component :=
  match evs with
  | [] => ret c
  | ev :: evs' => c' ← handle c ev; run c' evs'
  end.

(** Playback in which every step's animation runs to its end: the
    completion reports of steps [0], [1], ..., [k-1], each taken modulo
    the number [N] of steps, all with [finished = true]. *)
Definition completions (N k : nat) : list Event :=
  (λ j, stepCompleted (j `mod` N)%nat true) <$> seq 0 k.

(** Completion reports in any order, for any steps, finished or not. *)
Definition reports (rs : list (nat * bool)) : list Event :=
  (λ r, stepCompleted r.1 r.2) <$> rs.


(** The side effects of a step start as the specification words them: one
    cue keyed by the step id, and the minimized circle started on exhale
    and hidden on inhale and on both hold states. *)
Definition spec_cue (i : StepId) : string :=
  match i with
  | exhale => "lauraBreatheOut"
  | inhale => "lauraBreatheIn"
  | afterInhale | afterExhale => "lauraHold"
  end%string.

Definition spec_circleMin (i : StepId) : Animation :=
  match i with
  | exhale => showCircleMinAnimation
  | inhale | afterInhale | afterExhale => hideCircleMinAnimation
  end.

(** Sample steps: the cycle of the specification's end-to-end scenario, a
    skipped hold, and a hold that follows the exhale directly. *)
Definition step_inhale : Step := mkStep inhale 4000 false false "Inhale"%string.
Definition step_afterInhale : Step := mkStep afterInhale 1000 false true "Hold"%string.
Definition step_exhale : Step := mkStep exhale 4000 false false "Exhale"%string.
Definition step_afterExhale_skipped : Step :=
  mkStep afterExhale 0 true true "Hold"%string.

(** ** The interval hook

    [useInterval(callback, interval = 1000)].  The hook instance holds the
    mutable cell [callbackRef], the dependency array of the last run of
    the second effect, and the timer that effect registered. *)
Module Interval.
Section useInterval.
Context {Callback : Type}.

(** The contents of [callbackRef.current], of type [any]: the initial
    [null], or a callback. *)
Inductive JsVal : Type :=
  | null
  | fn (f : Callback).

Inductive TimerEffect : Type :=
  | setInterval (timer : nat) (ms : Z)
  | clearInterval (timer : nat)
  | invoke (f : Callback).

Record Hook : Type := mkHook {
  callbackRef_current : JsVal;
  deps : option Z;
  registered : option nat;
  next_timer : nat
}.

(** The instance before its first render: [useRef(null)], no effect has
    run. *)
Definition init : Hook := mkHook null None None 0.

Definition truthy (v : JsVal) : bool :=
  match v with
  | null => false
  | fn _ => true
  end.

(** Calling a value: a [TypeError] ([None]) unless it is a function. *)
Definition call (v : JsVal) : option (list TimerEffect) :=
  match v with
  | null => None
  | fn f => Some [invoke f]
  end.

(** [tick], lines 17-19:
    [callbackRef.current && callbackRef.current()]. *)
Definition tick (h : Hook) : option (list TimerEffect) :=
  if truthy (callbackRef_current h)
  then call (callbackRef_current h)
  else Some [].

(** The effects that run after a render with the given arguments.  The
    clean-up of the second effect and the effect itself run when its
    dependency [interval] is not the one of the previous render; the
    first effect has no dependency array and runs after every render. *)
Definition render (callback : Callback) (interval : option Z) (h : Hook)
    : Hook * list TimerEffect :=
  let interval := default 1000 interval in
  let rerun := bool_decide (deps h ≠ Some interval) in
  let cleared :=
    if rerun then
      match registered h with
      | Some timer => [clearInterval timer]
      | None => []
      end
    else [] in
  (* first effect: callbackRef.current = callback *)
  let current := fn callback in
  (* second effect: let id = setInterval(tick, interval) *)
  if rerun then
    (mkHook current (Some interval) (Some (next_timer h)) (S (next_timer h)),
     cleared ++ [setInterval (next_timer h) interval])
  else
    (mkHook current (deps h) (registered h) (next_timer h), cleared).

(** The platform fires the timer [timer]: its [tick] runs if the timer
    is still registered. *)
Definition fire (timer : nat) (h : Hook) : option (list TimerEffect) :=
  if bool_decide (registered h = Some timer) then tick h else Some [].

(** Re-renders with the callbacks [callbacks], one after the other, all
    with the same [interval]. *)
Fixpoint rerenders (callbacks : list Callback) (interval : option Z)
    (h : Hook) : Hook * list TimerEffect :=
  match callbacks with
  | [] => (h, [])
  | cb :: rest =>
      let '(h1, t1) := render cb interval h in
      let '(h2, t2) := rerenders rest interval h1 in
      (h2, t1 ++ t2)
  end.
End useInterval.
#[global] Arguments JsVal : clear implicits.
#[global] Arguments TimerEffect : clear implicits.
#[global] Arguments Hook : clear implicits.
End Interval.

(** *** The life of the hook

    The renders of one hook instance, each with its own arguments, the
    unmount, and what the timer calls leave registered with the
    platform. *)
Module IntervalLifecycle.
Import Interval.
Section useInterval.
Context {Callback : Type}.

(** Unmounting runs the clean-up of the second effect, line 22:
    [clearInterval(id)] of the timer it registered.  The first effect
    returns no clean-up. *)
Definition unmount (h : Hook Callback) : Hook Callback * list (TimerEffect Callback) :=
  match registered h with
  | Some timer =>
      (mkHook (callbackRef_current h) (deps h) None (next_timer h),
       [clearInterval timer])
  | None => (h, [])
  end.

(** Renders one after the other, each with its callback and interval. *)
Fixpoint renders (args : list (Callback * option Z)) (h : Hook Callback)
    : Hook Callback * list (TimerEffect Callback) :=
  match args with
  | [] => (h, [])
  | (cb, interval) :: rest =>
      let '(h1, t1) := render cb interval h in
      let '(h2, t2) := renders rest h1 in
      (h2, t1 ++ t2)
  end.

(** The timers registered with the platform, with their periods, after
    the timer calls of a trace: [setInterval] registers one,
    [clearInterval] removes the one it names, if any. *)
Fixpoint live_timers (t : list (TimerEffect Callback)) (live : list (nat * Z))
    : list (nat * Z) :=
  match t with
  | [] => live
  | setInterval timer ms :: t' => live_timers t' (live ++ [(timer, ms)])
  | clearInterval timer :: t' =>
      live_timers t' (filter (λ p : nat * Z, p.1 ≠ timer) live)
  | invoke _ :: t' => live_timers t' live
  end.
End useInterval.
End IntervalLifecycle.

(** ** Theorems on the derivation of the active steps *)

Lemma activeSteps_cons x steps :
  activeSteps (x :: steps) =
    if skipped x then activeSteps steps else x :: activeSteps steps.
Proof.
  unfold activeSteps. rewrite filter_cons.
  by destruct (skipped x).
Qed.

Lemma activeSteps_remove_skipped steps :
  activeSteps steps = remove_skipped steps.
Proof.
  induction steps as [|x steps IH]; [done|].
  rewrite activeSteps_cons. simpl. by rewrite IH.
Qed.

Lemma elem_of_activeSteps steps x :
  x ∈ activeSteps steps ↔ x ∈ steps ∧ skipped x = false.
Proof.
  unfold activeSteps. rewrite list_elem_of_filter.
  destruct (skipped x); simpl; intuition congruence.
Qed.

Lemma fresh_ref_unused (h : gmap nat (list Step)) :
  h !! fresh (dom h) = None.
Proof. apply not_elem_of_dom. apply is_fresh. Qed.

(** C8.  The derived active steps are the input list with every skipped
    entry removed: they equal the spec's [remove_skipped], no kept entry is
    skipped and every entry that is not skipped is kept, the kept entries
    stand in their input order, and in the store the input array reads the
    same after the derivation as before while the result is a new array. *)
Theorem C8_activeSteps_filter (h : gmap nat (list Step)) (r : ArrayRef)
    (steps : list Step) :
  h !! r = Some steps →
  ∃ r' h',
    derive_activeSteps r h = Some (r', h') ∧
    h' !! r' = Some (activeSteps steps) ∧
    activeSteps steps = remove_skipped steps ∧
    (∀ x, x ∈ activeSteps steps ↔ x ∈ steps ∧ skipped x = false) ∧
    activeSteps steps `sublist_of` steps ∧
    r' ≠ r ∧
    h' !! r = Some steps ∧
    (∀ q, q ≠ r' → h' !! q = h !! q).
Proof.
  intros Hr. exists (fresh (dom h)), (<[fresh (dom h) := activeSteps steps]> h).
  assert (Hne : fresh (dom h) ≠ r).
  { intros E. pose proof (fresh_ref_unused h) as Hf. congruence. }
  split_and!.
  - unfold derive_activeSteps, array_filter. by rewrite Hr.
  - apply lookup_insert_eq.
  - apply activeSteps_remove_skipped.
  - intros x. apply elem_of_activeSteps.
  - apply sublist_filter.
  - done.
  - rewrite lookup_insert_ne; done.
  - intros q Hq. rewrite lookup_insert_ne; done.
Qed.

Lemma C8_activeSteps_filter_witness :
  ({[ 0%nat := [step_inhale; step_afterExhale_skipped; step_exhale] ]}
     : gmap nat (list Step)) !! 0%nat
    = Some [step_inhale; step_afterExhale_skipped; step_exhale] ∧
  ∃ r' h',
    derive_activeSteps 0
      {[ 0%nat := [step_inhale; step_afterExhale_skipped; step_exhale] ]}
      = Some (r', h') ∧
    h' !! r' = Some [step_inhale; step_exhale] ∧
    h' !! 0%nat = Some [step_inhale; step_afterExhale_skipped; step_exhale].
Proof.
  assert (H : ({[ 0%nat := [step_inhale; step_afterExhale_skipped; step_exhale] ]}
                 : gmap nat (list Step)) !! 0%nat
              = Some [step_inhale; step_afterExhale_skipped; step_exhale])
    by reflexivity.
  split; [exact H|].
  destruct (C8_activeSteps_filter _ _ _ H)
    as (r' & h' & Hd & Hnew & _ & _ & _ & _ & Hold & _).
  exists r', h'. split; [exact Hd|]. split; [exact Hnew | exact Hold].
Defined.

(** ** The close action *)


(** ** The animation of one step *)





(** ** Runs *)

Lemma bind_returned {A B} (t : list Effect) (a : A) (k : A → Run B) :
  ((t, Some a) : Run A) ≫= k = (t ++ trace_of (k a), value_of (k a)).
Proof.
  unfold mbind, Run_bind, bind, trace_of, value_of. by destruct (k a).
Qed.

Lemma bind_threw {A B} (t : list Effect) (k : A → Run B) :
  ((t, None) : Run A) ≫= k = (t, None).
Proof. reflexivity. Qed.

Lemma run_eta {A} (m : Run A) : m = (trace_of m, value_of m).
Proof. by destruct m. Qed.

Lemma onStepStart_calls_app (t1 t2 : list Effect) :
  onStepStart_calls (t1 ++ t2) = onStepStart_calls t1 ++ onStepStart_calls t2.
Proof. apply omap_app. Qed.

Lemma state_after_app (t1 t2 : list Effect) (cur : nat) :
  state_after (t1 ++ t2) cur = state_after t2 (state_after t1 cur).
Proof. apply fold_left_app. Qed.

(** ** The side effects of a step start *)

Lemma onStepStart_at (steps : list Step) (i : nat) (step : Step) :
  activeSteps steps !! i = Some step →
  onStepStart steps i =
    (setCurrentStepIndex i :: playSound (spec_cue (id step)) ::
       match id step with
       | exhale => [start showCircleMinAnimation]
       | inhale | afterExhale => [start hideCircleMinAnimation]
       | afterInhale => []
       end,
     Some tt).
Proof.
  intros Hi. unfold onStepStart. rewrite Hi.
  destruct step as [sid d sk sd l]. by destruct sid.
Qed.

Lemma onStepStart_out_of_range (steps : list Step) (i : nat) :
  activeSteps steps !! i = None →
  onStepStart steps i = ([setCurrentStepIndex i], None).
Proof. intros Hi. unfold onStepStart. by rewrite Hi. Qed.

(** C7, as the code has it.  At an index [i] of the active steps,
    [onStepStart i] sets the current step index, then plays exactly one
    sound, the cue of the step's id (breathe-out for exhale, breathe-in
    for inhale, the one hold cue for both holds), then starts the
    minimized-circle show animation on exhale, starts the hide animation on
    inhale and on the hold after the exhale, and on the hold after the
    inhale starts no animation of the minimized circle. *)
Theorem C7_onStepStart_effects (steps : list Step) (i : nat) (step : Step) :
  activeSteps steps !! i = Some step →
  value_of (onStepStart steps i) = Some tt ∧
  sounds (trace_of (onStepStart steps i)) = [spec_cue (id step)] ∧
  trace_of (onStepStart steps i) =
    setCurrentStepIndex i :: playSound (spec_cue (id step)) ::
      match id step with
      | exhale => [start showCircleMinAnimation]
      | inhale | afterExhale => [start hideCircleMinAnimation]
      | afterInhale => []
      end.
Proof.
  intros Hi. rewrite (onStepStart_at _ _ _ Hi).
  split_and!; [done| |done].
  unfold trace_of. simpl. by destruct (id step).
Qed.

Lemma C7_onStepStart_effects_witness :
  activeSteps [step_inhale; step_afterInhale; step_exhale] !! 2%nat
    = Some step_exhale ∧
  trace_of (onStepStart [step_inhale; step_afterInhale; step_exhale] 2) =
    [ setCurrentStepIndex 2; playSound "lauraBreatheOut"%string;
      start showCircleMinAnimation ].
Proof.
  assert (H : activeSteps [step_inhale; step_afterInhale; step_exhale] !! 2%nat
                = Some step_exhale) by reflexivity.
  split; [exact H|].
  exact (proj2 (proj2 (C7_onStepStart_effects _ _ _ H))).
Defined.

(** C7, as stated, fails on the hold after the inhale.  With the active
    steps exhale, hold-after-inhale, the start of step 1 plays the hold cue
    and starts no animation: the hide animation the claim expects is not
    in its trace, and the last minimized-circle animation started is the
    show animation of the exhale. *)
Lemma C7_afterInhale_does_not_hide :
  activeSteps [step_exhale; step_afterInhale] !! 1%nat = Some step_afterInhale ∧
  id step_afterInhale = afterInhale ∧
  spec_circleMin (id step_afterInhale) = hideCircleMinAnimation ∧
  (onStepStart [step_exhale; step_afterInhale] 0;;
   onStepStart [step_exhale; step_afterInhale] 1) =
    ([ setCurrentStepIndex 0; playSound "lauraBreatheOut"%string;
       start showCircleMinAnimation;
       setCurrentStepIndex 1; playSound "lauraHold"%string ],
     Some tt) ∧
  start (spec_circleMin (id step_afterInhale))
    ∉ trace_of (onStepStart [step_exhale; step_afterInhale] 1).
Proof.
  split_and!; try reflexivity.
  intros H. cbn in H.
  repeat (apply elem_of_cons in H as [H|H]; [discriminate|]).
  by apply elem_of_nil in H.
Qed.

(** ** The lookup of the current step *)

Lemma activeSteps_all_skipped (steps : list Step) :
  Forall (λ x, skipped x = true) steps → activeSteps steps = [].
Proof.
  induction 1 as [|x steps Hx _ IH]; [done|].
  by rewrite activeSteps_cons, Hx.
Qed.

Lemma activeSteps_nonempty (steps : list Step) :
  Exists (λ x, skipped x = false) steps → (0 < length (activeSteps steps))%nat.
Proof.
  intros (x & Hx & Hs)%Exists_exists.
  assert (Hin : x ∈ activeSteps steps) by by apply elem_of_activeSteps.
  destruct (activeSteps steps); [by apply elem_of_nil in Hin | simpl; lia].
Qed.

Lemma render_at (c : Component) (step : Step) :
  activeSteps (steps c) !! currentStepIndex c = Some step →
  render c = ([], Some (mkView (label step) (showDots step) (duration step))).
Proof. intros H. unfold render. by rewrite H. Qed.

(** C9.  The component does not validate its steps.  When every step is
    skipped there are no active steps, the lookup at the initial index 0
    yields nothing, and the render, which reads the label of what the
    lookup yields, throws, so the component does not mount.  A lookup
    that yields a step, at whatever index, implies that some step is not
    skipped; and when some step is not skipped, the lookup and the render
    succeed at the initial index and at every index the sequencer sets,
    that is every [k mod N]. *)
Theorem C9_lookup_needs_an_active_step (steps : list Step) (eT mT : Z) :
  (Forall (λ x, skipped x = true) steps →
     activeSteps steps = [] ∧
     activeSteps steps !! 0%nat = None ∧
     render (mkComponent steps eT mT 0 Idle) = ([], None) ∧
     mount steps eT mT = ([], None)) ∧
  (∀ i, is_Some (activeSteps steps !! i) →
     Exists (λ x, skipped x = false) steps) ∧
  (Exists (λ x, skipped x = false) steps →
     ∀ (k : nat) (s : SequencerState),
       let i := (k `mod` length (activeSteps steps))%nat in
       is_Some (activeSteps steps !! i) ∧
       is_Some (value_of (render (mkComponent steps eT mT i s)))).
Proof.
  split_and!.
  - intros Hall. pose proof (activeSteps_all_skipped _ Hall) as Hnil.
    unfold mount, render. simpl. rewrite Hnil. done.
  - intros i [x Hx]. apply Exists_exists. exists x.
    apply list_elem_of_lookup_2, elem_of_activeSteps in Hx. done.
  - intros Hex k s i. pose proof (activeSteps_nonempty _ Hex) as Hlen.
    assert (Hi : (i < length (activeSteps steps))%nat)
      by (apply Nat.mod_upper_bound; lia).
    apply lookup_lt_is_Some in Hi as [x Hx].
    split; [by exists x|].
    erewrite render_at by exact Hx. by eexists.
Qed.

(** ** The sequencer inside the component *)

Lemma bind_assoc {A B C} (m : Run A) (k : A → Run B) (k' : B → Run C) :
  (m ≫= k) ≫= k' = m ≫= (λ a, k a ≫= k').
Proof.
  destruct m as [t [a|]]; [|done].
  unfold mbind, Run_bind, bind.
  destruct (k a) as [t1 [b|]]; [|done].
  destruct (k' b) as [t2 r]. by rewrite app_assoc.
Qed.

Lemma bind_ret_r {A} (m : Run A) : m ≫= ret = m.
Proof.
  destruct m as [t [a|]]; [|done].
  unfold mbind, Run_bind, bind, ret. by rewrite app_nil_r.
Qed.

Lemma bind_ext {A B} (m : Run A) (k k' : A → Run B) :
  (∀ a, k a = k' a) → m ≫= k = m ≫= k'.
Proof.
  intros Hk. destruct m as [t [a|]]; [|done].
  unfold mbind, Run_bind, bind. by rewrite Hk.
Qed.

Lemma run_app (c : Component) (evs1 evs2 : list Event) :
  run c (evs1 ++ evs2) = c' ← run c evs1; run c' evs2.
Proof.
  revert c. induction evs1 as [|ev evs1 IH]; intros c; simpl.
  - unfold mbind, Run_bind, bind, ret. by destruct (run c evs2).
  - rewrite bind_assoc. apply bind_ext. intros c'. apply IH.
Qed.

Lemma createStepAnimations_length (steps : list Step) :
  length (createStepAnimations steps) = length (activeSteps steps).
Proof. apply length_fmap. Qed.

(** Entering a step that exists: the callback is invoked once, with that
    index, it does not throw, and the step's animation is started after
    it. *)
Lemma begin_step_at (steps : list Step) (i : nat) :
  (i < length (activeSteps steps))%nat →
  ∃ a,
    createStepAnimations steps !! i = Some a ∧
    begin_step (createStepAnimations steps) (onStepStart steps) i =
      (call_onStepStart i :: trace_of (onStepStart steps i) ++ [start a],
       Some (PlayingStep i)) ∧
    onStepStart_calls
      (call_onStepStart i :: trace_of (onStepStart steps i) ++ [start a]) = [i] ∧
    ∀ cur,
      state_after
        (call_onStepStart i :: trace_of (onStepStart steps i) ++ [start a]) cur = i.
Proof.
  intros Hi. apply lookup_lt_is_Some in Hi as [step Hstep].
  assert (Ha : ∃ a, createStepAnimations steps !! i = Some a).
  { unfold createStepAnimations. rewrite list_lookup_fmap, Hstep. by eexists. }
  destruct Ha as [a Ha]. exists a. split; [done|].
  unfold begin_step. rewrite Ha, (onStepStart_at _ _ _ Hstep).
  split_and!.
  - by destruct (id step).
  - by destruct (id step).
  - intros cur. by destruct (id step).
Qed.

Lemma with_sequencer_returned (c : Component) (t : list Effect)
    (s : SequencerState) :
  with_sequencer c (t, Some s) =
    (t, Some (mkComponent (steps c) (elapsedTime c) (minimumElapsedTime c)
                (state_after t (currentStepIndex c)) s)).
Proof.
  unfold with_sequencer, trace_of. simpl.
  unfold mbind, Run_bind, bind, ret. by rewrite app_nil_r.
Qed.

Lemma with_sequencer_kept (c : Component) :
  with_sequencer c (ret (sequencer c)) = ([], Some c).
Proof. unfold ret. rewrite with_sequencer_returned. by destruct c. Qed.

(** A report with [finished = false] changes nothing. *)
Lemma handle_unfinished (c : Component) (i : nat) :
  handle c (stepCompleted i false) = ([], Some c).
Proof.
  simpl. unfold loop_completed.
  destruct (sequencer c) eqn:Hs; simpl; rewrite <- Hs; apply with_sequencer_kept.
Qed.

(** A sequencer that was not started, or that was stopped, ignores every
    report. *)
Lemma handle_not_playing (c : Component) (i : nat) (finished : bool) :
  sequencer c = Idle ∨ sequencer c = Stopped →
  handle c (stepCompleted i finished) = ([], Some c).
Proof.
  intros Hs. simpl. unfold loop_completed.
  destruct Hs as [Hs|Hs]; rewrite Hs; rewrite <- Hs; apply with_sequencer_kept.
Qed.

Lemma run_not_playing (c : Component) (rs : list (nat * bool)) :
  sequencer c = Idle ∨ sequencer c = Stopped →
  run c (reports rs) = ([], Some c).
Proof.
  intros Hs. induction rs as [|[i f] rs IH]; [done|].
  change (run c (reports ((i, f) :: rs)))
    with (c' ← handle c (stepCompleted i f); run c' (reports rs)).
  rewrite handle_not_playing by done. by rewrite bind_returned, IH.
Qed.

(** The entrance animation completes with [finished = true]: the sequencer
    starts at step 0. *)
Lemma handle_showUp_finished (c : Component) :
  (0 < length (activeSteps (steps c)))%nat →
  ∃ t c',
    handle c (showUpCompleted true) = (t, Some c') ∧
    onStepStart_calls t = [0%nat] ∧
    sequencer c' = PlayingStep 0 ∧
    currentStepIndex c' = 0%nat ∧
    steps c' = steps c.
Proof.
  intros HN. destruct (begin_step_at (steps c) 0 HN) as (a & Ha & Hb & Hc & Hs).
  eexists _, _. split.
  - simpl. unfold startAnimationSteps, loop_start. rewrite Hb.
    apply with_sequencer_returned.
  - by rewrite Hs.
Qed.

(** The animation of the step being played completes with
    [finished = true]: the sequencer enters the next step, modulo the
    number of steps. *)
Lemma handle_step_finished (c : Component) (i : nat) :
  (0 < length (activeSteps (steps c)))%nat →
  sequencer c = PlayingStep i →
  let next := ((i + 1) `mod` length (activeSteps (steps c)))%nat in
  ∃ t c',
    handle c (stepCompleted i true) = (t, Some c') ∧
    onStepStart_calls t = [next] ∧
    sequencer c' = PlayingStep next ∧
    currentStepIndex c' = next ∧
    steps c' = steps c.
Proof.
  intros HN Hs next.
  assert (Hnext : (next < length (activeSteps (steps c)))%nat)
    by (apply Nat.mod_upper_bound; lia).
  destruct (begin_step_at (steps c) next Hnext) as (a & Ha & Hb & Hc & Hst).
  eexists _, _. split.
  - simpl. unfold loop_completed. rewrite Hs.
    rewrite bool_decide_eq_true_2 by done. simpl.
    rewrite createStepAnimations_length. fold next. rewrite Hb.
    apply with_sequencer_returned.
  - by rewrite Hst.
Qed.

Lemma completions_S (N k : nat) :
  completions N (S k) = completions N k ++ [stepCompleted (k `mod` N)%nat true].
Proof. unfold completions. by rewrite seq_S, fmap_app. Qed.

(** Playback from a component that has not started its sequencer. *)
Lemma playback (c : Component) (k : nat) :
  (0 < length (activeSteps (steps c)))%nat →
  let N := length (activeSteps (steps c)) in
  ∃ t c',
    run c (showUpCompleted true :: completions N k) = (t, Some c') ∧
    onStepStart_calls t = (λ j, j `mod` N)%nat <$> seq 0 (S k) ∧
    sequencer c' = PlayingStep (k `mod` N) ∧
    currentStepIndex c' = (k `mod` N)%nat ∧
    steps c' = steps c.
Proof.
  intros HN N. induction k as [|k IH].
  - destruct (handle_showUp_finished c HN) as (t & c' & Hh & Hc & Hs & Hi & Hst).
    exists t, c'.
    change (run c (showUpCompleted true :: completions N 0))
      with (c1 ← handle c (showUpCompleted true); run c1 []).
    rewrite Hh, bind_returned. simpl. rewrite app_nil_r.
    rewrite Nat.Div0.mod_0_l. done.
  - destruct IH as (t & c' & Hrun & Hcalls & Hs & Hi & Hst).
    assert (HN' : (0 < length (activeSteps (steps c')))%nat) by by rewrite Hst.
    destruct (handle_step_finished c' _ HN' Hs)
      as (t' & c'' & Hh & Hc' & Hs' & Hi' & Hst').
    rewrite Hst in Hc', Hs', Hi'. fold N in Hc', Hs', Hi'.
    rewrite Nat.Div0.add_mod_idemp_l, Nat.add_1_r in Hc', Hs', Hi'.
    exists (t ++ t'), c''.
    rewrite completions_S, app_comm_cons, run_app, Hrun, bind_returned.
    change (run c' [stepCompleted (k `mod` N)%nat true])
      with (c1 ← handle c' (stepCompleted (k `mod` N)%nat true); run c1 []).
    rewrite Hh, bind_returned. simpl trace_of. simpl value_of.
    rewrite app_nil_r. split_and!; try done.
    + rewrite onStepStart_calls_app, Hcalls, Hc'.
      by rewrite (seq_S (S k)), fmap_app.
    + congruence.
Qed.

Lemma mount_at (steps : list Step) (eT mT : Z) :
  (0 < length (activeSteps steps))%nat →
  mount steps eT mT =
    ([start showUpAnimation], Some (mkComponent steps eT mT 0 Idle)).
Proof.
  intros HN. apply lookup_lt_is_Some in HN as [x Hx].
  unfold mount. erewrite render_at by exact Hx. reflexivity.
Qed.

Lemma nonempty_length {A} (l : list A) : l ≠ [] → (0 < length l)%nat.
Proof. destruct l; [done | simpl; lia]. Qed.

Lemma mod_seq_small (N : nat) :
  (λ j, j `mod` N)%nat <$> seq 0 N = seq 0 N.
Proof.
  rewrite <- (list_fmap_id (seq 0 N)) at 2.
  apply list_fmap_ext. intros i j Hj.
  apply lookup_seq in Hj as [-> Hlt]. simpl. apply Nat.mod_small. lia.
Qed.

Lemma playback_mounted (sts : list Step) (eT mT : Z) (k : nat) :
  (0 < length (activeSteps sts))%nat →
  let N := length (activeSteps sts) in
  ∃ t c',
    (c ← mount sts eT mT; run c (showUpCompleted true :: completions N k))
      = (start showUpAnimation :: t, Some c') ∧
    onStepStart_calls t = (λ j, j `mod` N)%nat <$> seq 0 (S k) ∧
    sequencer c' = PlayingStep (k `mod` N) ∧
    currentStepIndex c' = (k `mod` N)%nat ∧
    steps c' = sts.
Proof.
  intros HN N.
  destruct (playback (mkComponent sts eT mT 0 Idle) k HN)
    as (t & c' & Hrun & Hcalls & Hs & Hi & Hst).
  cbn [steps] in *. fold N in Hrun, Hcalls, Hs, Hi.
  exists t, c'. split_and!; try done.
  rewrite mount_at by done. by rewrite bind_returned, Hrun.
Qed.

(** C3.  Modelled sequencer, component as in the source.  For steps with
    at least one active step, [N] of them: the component mounts, the
    entrance animation finishes, and the animations of the steps report
    [finished = true] one after the other, [k] of them.  Then
    [onStepStart] was invoked [k + 1] times, with the indices
    [0, 1, ..., k] taken modulo [N]: once per index and in index order
    over each round of [N], back at 0 after [N - 1], for every [k].  The
    sequencer then plays step [k mod N]; a report with [finished = false]
    changes nothing and invokes nothing; the report with
    [finished = true] of the step being played invokes [onStepStart] once,
    with the next index modulo [N], and enters that step. *)
Theorem C3_steps_start_in_order_forever (steps : list Step) (eT mT : Z)
    (k : nat) :
  activeSteps steps ≠ [] →
  let N := length (activeSteps steps) in
  ∃ t c',
    (c ← mount steps eT mT; run c (showUpCompleted true :: completions N k))
      = (t, Some c') ∧
    onStepStart_calls t = (λ j, j `mod` N)%nat <$> seq 0 (S k) ∧
    ((N ≤ S k)%nat → take N (onStepStart_calls t) = seq 0 N) ∧
    sequencer c' = PlayingStep (k `mod` N) ∧
    currentStepIndex c' = (k `mod` N)%nat ∧
    (∀ i, handle c' (stepCompleted i false) = ([], Some c')) ∧
    (∃ t' c'',
       handle c' (stepCompleted (k `mod` N)%nat true) = (t', Some c'') ∧
       onStepStart_calls t' = [((k `mod` N + 1) `mod` N)%nat] ∧
       sequencer c'' = PlayingStep ((k `mod` N + 1) `mod` N)).
Proof.
  intros Hne N. pose proof (nonempty_length _ Hne) as HN.
  destruct (playback_mounted steps eT mT k HN)
    as (t & c' & Hrun & Hcalls & Hs & Hi & Hst).
  fold N in Hrun, Hcalls, Hs, Hi.
  exists (start showUpAnimation :: t), c'.
  split_and!; try done.
  - intros Hle. simpl. rewrite Hcalls, <- fmap_take, take_seq.
    rewrite Nat.min_l by done. apply mod_seq_small.
  - intros i. apply handle_unfinished.
  - pose proof HN as HN'. rewrite <- Hst in HN'.
    destruct (handle_step_finished c' _ HN' Hs)
      as (t' & c'' & Hh & Hc' & Hs' & _).
    rewrite Hst in Hc', Hs'. by exists t', c''.
Qed.

Lemma C3_steps_start_in_order_forever_witness :
  activeSteps [step_inhale; step_afterInhale; step_exhale] ≠ [] ∧
  ∃ t c',
    (c ← mount [step_inhale; step_afterInhale; step_exhale] 0 0;
     run c (showUpCompleted true :: completions 3 5)) = (t, Some c') ∧
    onStepStart_calls t = [0; 1; 2; 0; 1; 2]%nat ∧
    sequencer c' = PlayingStep 2.
Proof.
  assert (H : activeSteps [step_inhale; step_afterInhale; step_exhale] ≠ [])
    by discriminate.
  split; [exact H|].
  destruct (C3_steps_start_in_order_forever
              [step_inhale; step_afterInhale; step_exhale] 0 0 5 H)
    as (t & c' & Hrun & Hcalls & _ & Hs & _).
  exists t, c'. split; [exact Hrun|]. split; [exact Hcalls | exact Hs].
Defined.

(** The clean-up of a component whose sequencer is playing step [i]. *)
Lemma cleanup_playing (c : Component) (i : nat) :
  sequencer c = PlayingStep i →
  cleanup c =
    (match createStepAnimations (steps c) !! i with
     | Some a => [stop a]
     | None => []
     end ++
     [stop showUpAnimation; stop showCircleMinAnimation;
      stop hideCircleMinAnimation],
     Some (mkComponent (steps c) (elapsedTime c) (minimumElapsedTime c)
             (currentStepIndex c) Stopped)).
Proof.
  intros Hs. unfold cleanup, loop_stop. rewrite Hs.
  by destruct (createStepAnimations (steps c) !! i).
Qed.

(** C4.  Modelled sequencer, clean-up as in the source.  At any point of
    playback, that is with the sequencer playing whatever step [i], the
    clean-up stops the sequencer: it stops the animation in flight and the
    three animations of the component, invokes no [onStepStart], and
    leaves the sequencer stopped.  Whatever completion reports arrive
    afterwards, for any step, with [finished] false or true, in any
    number, they invoke no [onStepStart], perform no effect at all, and
    leave the component as the clean-up left it. *)
Theorem C4_no_step_start_after_stop (c : Component) (i : nat)
    (rs : list (nat * bool)) :
  sequencer c = PlayingStep i →
  ∃ t c',
    handle c unmount = (t, Some c') ∧
    sequencer c' = Stopped ∧
    onStepStart_calls t = [] ∧
    (∀ a, createStepAnimations (steps c) !! i = Some a →
       t = [ stop a; stop showUpAnimation; stop showCircleMinAnimation;
             stop hideCircleMinAnimation ]) ∧
    run c' (reports rs) = ([], Some c') ∧
    onStepStart_calls (trace_of (run c' (reports rs))) = [] ∧
    handle c' (stepCompleted i false) = ([], Some c') ∧
    handle c' (stepCompleted i true) = ([], Some c').
Proof.
  intros Hs. change (handle c unmount) with (cleanup c).
  rewrite (cleanup_playing c i Hs). eexists _, _. split; [reflexivity|].
  split_and!.
  - done.
  - by destruct (createStepAnimations (steps c) !! i).
  - by intros a ->.
  - by apply run_not_playing; right.
  - by rewrite run_not_playing by by right.
  - by apply handle_not_playing; right.
  - by apply handle_not_playing; right.
Qed.

Lemma C4_no_step_start_after_stop_witness :
  sequencer
    (mkComponent [step_inhale; step_afterInhale; step_exhale] 6 60000 1
       (PlayingStep 1)) = PlayingStep 1 ∧
  ∃ t c',
    handle
      (mkComponent [step_inhale; step_afterInhale; step_exhale] 6 60000 1
         (PlayingStep 1)) unmount = (t, Some c') ∧
    sequencer c' = Stopped ∧
    run c' (reports [(1%nat, true); (1%nat, false); (2%nat, true)])
      = ([], Some c').
Proof.
  split; [reflexivity|].
  destruct (C4_no_step_start_after_stop
              (mkComponent [step_inhale; step_afterInhale; step_exhale]
                 6 60000 1 (PlayingStep 1))
              1 [(1%nat, true); (1%nat, false); (2%nat, true)] eq_refl)
    as (t & c' & Hh & Hs & _ & _ & Hrun & _).
  exists t, c'. split; [exact Hh|]. split; [exact Hs | exact Hrun].
Defined.

(** C6.  A mounted component, with at least one active step, whose
    sequencer has not been started, receives the completion of the
    entrance animation.  The sequencer is playing step 0 afterwards if and
    only if the completion reported [finished = true], and then
    [onStepStart] was invoked once, with index 0.  When it reported
    [finished = false] nothing is performed, the component is unchanged
    with its sequencer not started, and completion reports that arrive
    later perform nothing either. *)
Theorem C6_sequencer_starts_iff_entrance_finished (c : Component)
    (finished : bool) (rs : list (nat * bool)) :
  activeSteps (steps c) ≠ [] →
  sequencer c = Idle →
  ∃ t c',
    handle c (showUpCompleted finished) = (t, Some c') ∧
    (sequencer c' = PlayingStep 0 ↔ finished = true) ∧
    (sequencer c' = Idle ↔ finished = false) ∧
    (finished = true → onStepStart_calls t = [0%nat]) ∧
    (finished = false →
       t = [] ∧ c' = c ∧ run c' (reports rs) = ([], Some c')).
Proof.
  intros Hne Hidle. pose proof (nonempty_length _ Hne) as HN.
  destruct finished.
  - destruct (handle_showUp_finished c HN) as (t & c' & Hh & Hc & Hs & _).
    exists t, c'. rewrite Hs. split_and!; try done.
  - exists [], c. rewrite Hidle. split_and!; try done.
    intros _. split_and!; try done.
    by apply run_not_playing; left.
Qed.

Lemma C6_sequencer_starts_iff_entrance_finished_witness :
  activeSteps [step_inhale; step_afterExhale_skipped] ≠ [] ∧
  ∃ c',
    handle (mkComponent [step_inhale; step_afterExhale_skipped] 0 60000 0 Idle)
      (showUpCompleted false) = ([], Some c') ∧
    sequencer c' = Idle.
Proof.
  assert (H : activeSteps [step_inhale; step_afterExhale_skipped] ≠ [])
    by discriminate.
  split; [exact H|].
  destruct (C6_sequencer_starts_iff_entrance_finished
              (mkComponent [step_inhale; step_afterExhale_skipped] 0 60000 0 Idle)
              false [] H eq_refl)
    as (t & c' & Hh & _ & Hs & _ & Hf).
  exists c'. destruct (Hf eq_refl) as (-> & _ & _).
  split; [exact Hh | exact (proj2 Hs eq_refl)].
Defined.

(** ** The interval hook *)

Module IntervalFacts.
Import Interval.
Section useInterval.
Context {Callback : Type}.
Implicit Types (h : Hook Callback) (cb A B : Callback).

Lemma render_same_interval cb interval h :
  deps h = Some (default 1000 interval) →
  render cb interval h =
    (mkHook (fn cb) (deps h) (registered h) (next_timer h), []).
Proof.
  intros Hd. unfold render.
  rewrite bool_decide_eq_false_2; [done|]. by intros [].
Qed.

Lemma rerenders_same_interval (between : list Callback) B interval h :
  deps h = Some (default 1000 interval) →
  rerenders (between ++ [B]) interval h =
    (mkHook (fn B) (deps h) (registered h) (next_timer h), []).
Proof.
  revert h. induction between as [|cb between IH]; intros h Hd.
  - cbn [app rerenders]. by rewrite render_same_interval.
  - cbn [app rerenders]. rewrite render_same_interval by done.
    by rewrite IH.
Qed.

Lemma mount_render A interval :
  render A interval init =
    (mkHook (fn A) (Some (default 1000 interval)) (Some 0%nat) 1,
     [setInterval 0 (default 1000 interval)]).
Proof. reflexivity. Qed.

(** C2.  The hook mounts with callback [A], which registers one timer,
    and is then rendered again, with the same interval, with any
    callbacks and last with [B].  The re-renders perform no timer call
    (no [clearInterval], no [setInterval]) and the registration is the
    one of the mount; the cell holds [B]; the next tick of that timer
    invokes [B], once, and nothing else, so not [A] when [A] differs
    from [B].  A render with another interval clears the timer and
    registers a new one, after which only the new timer fires. *)
Theorem C2_tick_invokes_latest_callback A B (between : list Callback)
    (interval : option Z) :
  let h1 := (render A interval init).1 in
  let h2 := (rerenders (between ++ [B]) interval h1).1 in
  ∃ timer,
    registered h1 = Some timer ∧
    (render A interval init).2 = [setInterval timer (default 1000 interval)] ∧
    (rerenders (between ++ [B]) interval h1).2 = [] ∧
    registered h2 = Some timer ∧
    callbackRef_current h2 = fn B ∧
    tick h2 = Some [invoke B] ∧
    fire timer h2 = Some [invoke B] ∧
    (A ≠ B → ∀ t, fire timer h2 = Some t → invoke A ∉ t) ∧
    (∀ interval',
       default 1000 interval' ≠ default 1000 interval →
       let r := render B interval' h2 in
       ∃ timer',
         timer' ≠ timer ∧
         r.2 = [clearInterval timer;
                setInterval timer' (default 1000 interval')] ∧
         registered r.1 = Some timer' ∧
         fire timer r.1 = Some [] ∧
         fire timer' r.1 = Some [invoke B]).
Proof.
  intros h1 h2. exists 0%nat. subst h2 h1.
  rewrite mount_render. cbn [fst snd].
  rewrite rerenders_same_interval by done. cbn [fst snd].
  cbn [deps registered next_timer].
  split_and!; try done.
  - intros HAB t Hf Hin. cbn in Hf. injection Hf as <-.
    apply list_elem_of_singleton in Hin. by injection Hin.
  - intros interval' Hne. exists 1%nat. unfold render.
    cbn [deps registered next_timer].
    rewrite bool_decide_eq_true_2 by congruence. done.
Qed.

(** C10.  A tick that finds the initial [null] in the callback cell
    invokes nothing and raises nothing, on the hook before its first
    render and on any hook whose cell is [null]; and no tick, whatever
    the cell holds, calls a value that is not a callback. *)
Theorem C10_tick_before_any_callback h (timer : nat) :
  callbackRef_current (@init Callback) = null ∧
  tick (@init Callback) = Some [] ∧
  (callbackRef_current h = null →
     tick h = Some [] ∧ fire timer h = Some []) ∧
  is_Some (tick h) ∧
  is_Some (fire timer h) ∧
  (∀ t, tick h = Some t →
     t = [] ∨ ∃ f, callbackRef_current h = fn f ∧ t = [invoke f]).
Proof.
  unfold fire, tick. split_and!; try done.
  - intros ->. simpl. by case_bool_decide.
  - by destruct (callbackRef_current h).
  - case_bool_decide; [|done]. by destruct (callbackRef_current h).
  - intros t. destruct (callbackRef_current h) as [|f]; simpl; intros [= <-].
    + by left.
    + right. by exists f.
Qed.
End useInterval.
End IntervalFacts.

(** ** Further properties of the exercise circle *)

Lemma sounds_app (t1 t2 : list Effect) :
  sounds (t1 ++ t2) = sounds t1 ++ sounds t2.
Proof. apply omap_app. Qed.

(** X1.  [onStepStart] returns normally exactly at the indices of the
    active steps.  Whatever the index, its first effect is the call of
    [setCurrentStepIndex] with that index; outside the active steps that
    is its only effect: it then throws on reading [step.id], having played
    no sound and started no animation. *)
Theorem X1_onStepStart_returns_iff_in_range (steps : list Step) (i : nat) :
  (value_of (onStepStart steps i) = Some tt
     ↔ (i < length (activeSteps steps))%nat) ∧
  head (trace_of (onStepStart steps i)) = Some (setCurrentStepIndex i) ∧
  ((length (activeSteps steps) ≤ i)%nat →
     onStepStart steps i = ([setCurrentStepIndex i], None) ∧
     sounds (trace_of (onStepStart steps i)) = []).
Proof.
  destruct (activeSteps steps !! i) as [x|] eqn:Hx.
  - pose proof (lookup_lt_Some _ _ _ Hx) as Hlt.
    rewrite (onStepStart_at _ _ _ Hx). split_and!; [done|done|].
    intros Hge. lia.
  - pose proof (lookup_ge_None_1 _ _ Hx) as Hge.
    rewrite (onStepStart_out_of_range _ _ Hx). split_and!; [|done|done].
    split; [done|]. intros Hlt. lia.
Qed.





Lemma cleanup_not_started (c : Component) :
  sequencer c = Idle →
  cleanup c =
    ([stop showUpAnimation; stop showCircleMinAnimation;
      stop hideCircleMinAnimation], Some c).
Proof. intros Hs. unfold cleanup. by rewrite Hs. Qed.

Lemma cleanup_stopped (c : Component) :
  sequencer c = Stopped →
  cleanup c =
    ([stop showUpAnimation; stop showCircleMinAnimation;
      stop hideCircleMinAnimation], Some c).
Proof. intros Hs. unfold cleanup. rewrite Hs. by destruct c; simplify_eq/=. Qed.

(** X4.  A component with an active step that is unmounted before its
    entrance animation has completed: the clean-up finds
    [cleanUpAnimationsSteps] unassigned and does not call it, it stops the
    entrance animation and the two minimized-circle animations, and the
    [finished = false] completion that follows, like any step report after
    it, starts nothing.  No sound is played and no step is entered in the
    whole life of the component. *)
Theorem X4_unmount_before_entrance_completes (steps : list Step) (eT mT : Z)
    (rs : list (nat * bool)) :
  activeSteps steps ≠ [] →
  (c ← mount steps eT mT;
   run c (unmount :: showUpCompleted false :: reports rs)) =
    ([ start showUpAnimation; stop showUpAnimation;
       stop showCircleMinAnimation; stop hideCircleMinAnimation ],
     Some (mkComponent steps eT mT 0 Idle)).
Proof.
  intros Hne. set (c0 := mkComponent steps eT mT 0 Idle).
  assert (H1 : run c0 (reports rs) = ([], Some c0))
    by by apply run_not_playing; left.
  assert (H2 : run c0 (showUpCompleted false :: reports rs) = ([], Some c0)).
  { change (run c0 (showUpCompleted false :: reports rs))
      with (c2 ← ret c0; run c2 (reports rs)).
    unfold ret. by rewrite bind_returned, H1. }
  assert (H3 : run c0 (unmount :: showUpCompleted false :: reports rs) =
                 ([stop showUpAnimation; stop showCircleMinAnimation;
                   stop hideCircleMinAnimation], Some c0)).
  { change (run c0 (unmount :: showUpCompleted false :: reports rs))
      with (c1 ← cleanup c0; run c1 (showUpCompleted false :: reports rs)).
    rewrite cleanup_not_started by done. by rewrite bind_returned, H2. }
  rewrite mount_at by by apply nonempty_length.
  fold c0. by rewrite bind_returned, H3.
Qed.

Lemma X4_unmount_before_entrance_completes_witness :
  activeSteps [step_inhale; step_exhale] ≠ [] ∧
  (c ← mount [step_inhale; step_exhale] 0 60000;
   run c (unmount :: showUpCompleted false :: reports [(0%nat, true)])) =
    ([ start showUpAnimation; stop showUpAnimation;
       stop showCircleMinAnimation; stop hideCircleMinAnimation ],
     Some (mkComponent [step_inhale; step_exhale] 0 60000 0 Idle)).
Proof.
  assert (H : activeSteps [step_inhale; step_exhale] ≠ []) by discriminate.
  split; [exact H|].
  exact (X4_unmount_before_entrance_completes
           [step_inhale; step_exhale] 0 60000 [(0%nat, true)] H).
Defined.

(** X5.  The clean-up never throws, whatever the state of the component,
    and it only stops animations: it starts none, plays no sound, enters
    no step and sets no state.  It leaves the sequencer not playing, and
    keeps the steps and the current step index.  Running it a second time
    stops the three animations of the component again and changes
    nothing. *)
Theorem X5_cleanup_only_stops (c : Component) :
  ∃ t c',
    handle c unmount = (t, Some c') ∧
    Forall (λ e, ∃ a, e = stop a) t ∧
    (sequencer c' = Idle ∨ sequencer c' = Stopped) ∧
    steps c' = steps c ∧
    currentStepIndex c' = currentStepIndex c ∧
    handle c' unmount =
      ([stop showUpAnimation; stop showCircleMinAnimation;
        stop hideCircleMinAnimation], Some c').
Proof.
  change (handle c unmount) with (cleanup c).
  destruct (sequencer c) as [|i|] eqn:Hs.
  - rewrite cleanup_not_started by done. eexists _, c.
    split; [reflexivity|]. split_and!.
    + repeat constructor; by eexists.
    + by left.
    + done.
    + done.
    + by apply cleanup_not_started.
  - rewrite (cleanup_playing c i Hs). eexists _, _.
    split; [reflexivity|]. split_and!.
    + destruct (createStepAnimations (steps c) !! i);
        repeat constructor; by eexists.
    + by right.
    + done.
    + done.
    + by apply cleanup_stopped.
  - rewrite cleanup_stopped by done. eexists _, c.
    split; [reflexivity|]. split_and!.
    + repeat constructor; by eexists.
    + by right.
    + done.
    + done.
    + by apply cleanup_stopped.
Qed.


(** Entering an active step from the component: what is performed and
    what the component is afterwards. *)
Lemma with_sequencer_begin_step (c : Component) (i : nat) :
  (i < length (activeSteps (steps c)))%nat →
  ∃ t c' x,
    with_sequencer c
      (begin_step (createStepAnimations (steps c)) (onStepStart (steps c)) i)
      = (t, Some c') ∧
    steps c' = steps c ∧
    currentStepIndex c' = i ∧
    sequencer c' = PlayingStep i ∧
    activeSteps (steps c) !! i = Some x ∧
    sounds t = [spec_cue (id x)] ∧
    onStepStart_calls t = [i].
Proof.
  intros Hi. destruct (begin_step_at (steps c) i Hi) as (a & Ha & Hb & Hc & Hst).
  apply lookup_lt_is_Some in Hi as [x Hx].
  rewrite Hb, with_sequencer_returned. eexists _, _, x.
  split; [reflexivity|]. cbn [steps currentStepIndex sequencer].
  split_and!; try done.
  rewrite (onStepStart_at _ _ _ Hx). unfold trace_of. cbn [fst].
  by destruct (id x).
Qed.

Lemma spec_cue_known (i : StepId) :
  spec_cue i ∈ ["lauraBreatheOut"; "lauraBreatheIn"; "lauraHold"]%string.
Proof. destruct i; simpl; set_solver. Qed.

(** One event on a component whose current step index is in range. *)
Lemma handle_in_range (c : Component) (ev : Event) :
  (0 < length (activeSteps (steps c)))%nat →
  (currentStepIndex c < length (activeSteps (steps c)))%nat →
  (∀ j, sequencer c = PlayingStep j → currentStepIndex c = j) →
  ∃ t c',
    handle c ev = (t, Some c') ∧
    steps c' = steps c ∧
    (currentStepIndex c' < length (activeSteps (steps c)))%nat ∧
    (∀ j, sequencer c' = PlayingStep j → currentStepIndex c' = j) ∧
    length (sounds t) = length (onStepStart_calls t) ∧
    Forall (λ s, s ∈ ["lauraBreatheOut"; "lauraBreatheIn"; "lauraHold"]%string)
      (sounds t).
Proof.
  intros HN Hcur Hsync.
  assert (Hbegin : ∀ i, (i < length (activeSteps (steps c)))%nat →
    ∃ t c',
      with_sequencer c
        (begin_step (createStepAnimations (steps c)) (onStepStart (steps c)) i)
        = (t, Some c') ∧
      steps c' = steps c ∧
      (currentStepIndex c' < length (activeSteps (steps c)))%nat ∧
      (∀ j, sequencer c' = PlayingStep j → currentStepIndex c' = j) ∧
      length (sounds t) = length (onStepStart_calls t) ∧
      Forall (λ s, s ∈ ["lauraBreatheOut"; "lauraBreatheIn"; "lauraHold"]%string)
        (sounds t)).
  { intros i Hi.
    destruct (with_sequencer_begin_step c i Hi)
      as (t & c' & x & Hw & Hst & Hidx & Hseq & Hx & Hsnd & Hcalls).
    exists t, c'. rewrite Hsnd, Hcalls, Hidx, Hseq.
    split_and!; try done.
    - intros j Hj. congruence.
    - apply Forall_singleton, spec_cue_known. }
  assert (Hkeep : ∃ t c',
    (([], Some c) : Run Component) = (t, Some c') ∧
    steps c' = steps c ∧
    (currentStepIndex c' < length (activeSteps (steps c)))%nat ∧
    (∀ j, sequencer c' = PlayingStep j → currentStepIndex c' = j) ∧
    length (sounds t) = length (onStepStart_calls t) ∧
    Forall (λ s, s ∈ ["lauraBreatheOut"; "lauraBreatheIn"; "lauraHold"]%string)
      (sounds t)).
  { exists [], c. split_and!; try done; try constructor; try (intros j' Hj'; congruence). }
  destruct ev as [finished|i finished| |].
  - destruct finished; [|exact Hkeep].
    apply (Hbegin 0%nat HN).
  - destruct finished; [|by rewrite handle_unfinished].
    destruct (sequencer c) as [|j|] eqn:Hs.
    + by rewrite handle_not_playing by by left.
    + cbn [handle]. unfold loop_completed. rewrite Hs. cbn [andb].
      case_bool_decide; [|rewrite <- Hs, with_sequencer_kept; exact Hkeep].
      rewrite createStepAnimations_length.
      apply Hbegin. apply Nat.mod_upper_bound. lia.
    + by rewrite handle_not_playing by by right.
  - change (handle c unmount) with (cleanup c).
    destruct (sequencer c) as [|j|] eqn:Hs.
    + rewrite cleanup_not_started by done. eexists _, c.
      split; [reflexivity|]. split_and!; try done; try constructor; try (intros j' Hj'; congruence).
    + rewrite (cleanup_playing c j Hs). eexists _, _.
      split; [reflexivity|]. cbn [steps currentStepIndex sequencer].
      destruct (createStepAnimations (steps c) !! j);
        split_and!; try done; try constructor; try (intros j' Hj'; congruence).
    + rewrite cleanup_stopped by done. eexists _, c.
      split; [reflexivity|]. split_and!; try done; try constructor; try (intros j' Hj'; congruence).
  - eexists _, c. split; [reflexivity|]. split_and!; try done; try constructor; try (intros j' Hj'; congruence).
Qed.

Lemma run_in_range (c : Component) (evs : list Event) :
  (0 < length (activeSteps (steps c)))%nat →
  (currentStepIndex c < length (activeSteps (steps c)))%nat →
  (∀ j, sequencer c = PlayingStep j → currentStepIndex c = j) →
  ∃ t c',
    run c evs = (t, Some c') ∧
    steps c' = steps c ∧
    (currentStepIndex c' < length (activeSteps (steps c)))%nat ∧
    (∀ j, sequencer c' = PlayingStep j → currentStepIndex c' = j) ∧
    length (sounds t) = length (onStepStart_calls t) ∧
    Forall (λ s, s ∈ ["lauraBreatheOut"; "lauraBreatheIn"; "lauraHold"]%string)
      (sounds t).
Proof.
  revert c. induction evs as [|ev evs IH]; intros c HN Hcur Hsync.
  - exists [], c. split_and!; try done; try constructor.
  - destruct (handle_in_range c ev HN Hcur Hsync)
      as (t1 & c1 & Hh & Hst1 & Hcur1 & Hsync1 & Hlen1 & Hall1).
    rewrite <- Hst1 in HN, Hcur1.
    destruct (IH c1 HN Hcur1 Hsync1)
      as (t2 & c2 & Hr & Hst2 & Hcur2 & Hsync2 & Hlen2 & Hall2).
    exists (t1 ++ t2), c2.
    change (run c (ev :: evs)) with (c' ← handle c ev; run c' evs).
    rewrite Hh, bind_returned, Hr. rewrite Hst1 in *.
    split_and!; try done.
    + rewrite sounds_app, onStepStart_calls_app, !length_app. lia.
    + rewrite sounds_app. by apply Forall_app.
Qed.

(** X7.  Modelled sequencer, handlers as in the source.  A component
    with at least one active step survives every sequence of events:
    entrance completions, completion reports for any step with any flag,
    close presses and unmounts, in any order and number.  No handler
    throws, the current step index stays an index of the active steps, so
    the render finds its current step and reads its label, and while the
    sequencer plays a step the current step index is that step. *)
Theorem X7_events_keep_the_current_step_in_range (sts : list Step)
    (eT mT : Z) (evs : list Event) :
  activeSteps sts ≠ [] →
  ∃ t c' x,
    (c ← mount sts eT mT; run c evs) = (t, Some c') ∧
    steps c' = sts ∧
    (currentStepIndex c' < length (activeSteps sts))%nat ∧
    (∀ j, sequencer c' = PlayingStep j → currentStepIndex c' = j) ∧
    activeSteps sts !! currentStepIndex c' = Some x ∧
    render c' = ([], Some (mkView (label x) (showDots x) (duration x))).
Proof.
  intros Hne. pose proof (nonempty_length _ Hne) as HN.
  destruct (run_in_range (mkComponent sts eT mT 0 Idle) evs)
    as (t & c' & Hr & Hst & Hcur & Hsync & _); [done|done|done|].
  cbn [steps] in *.
  destruct (lookup_lt_is_Some_2 _ _ Hcur) as [x Hx].
  exists (start showUpAnimation :: t), c', x.
  rewrite mount_at by done. rewrite bind_returned, Hr.
  split_and!; try done.
  apply render_at. by rewrite Hst.
Qed.

Lemma X7_events_keep_the_current_step_in_range_witness :
  activeSteps [step_inhale; step_afterInhale; step_exhale] ≠ [] ∧
  ∃ t c' x,
    (c ← mount [step_inhale; step_afterInhale; step_exhale] 0 60000;
     run c [ stepCompleted 2 true; showUpCompleted true; closePress;
             stepCompleted 0 true; stepCompleted 0 true;
             stepCompleted 1 false; unmount; stepCompleted 1 true ])
      = (t, Some c') ∧
    activeSteps [step_inhale; step_afterInhale; step_exhale]
      !! currentStepIndex c' = Some x.
Proof.
  assert (H : activeSteps [step_inhale; step_afterInhale; step_exhale] ≠ [])
    by discriminate.
  split; [exact H|].
  destruct (X7_events_keep_the_current_step_in_range
              [step_inhale; step_afterInhale; step_exhale] 0 60000
              [ stepCompleted 2 true; showUpCompleted true; closePress;
                stepCompleted 0 true; stepCompleted 0 true;
                stepCompleted 1 false; unmount; stepCompleted 1 true ] H)
    as (t & c' & x & Hr & _ & _ & _ & Hx & _).
  exists t, c', x. split; [exact Hr | exact Hx].
Defined.

(** X8.  Modelled sequencer, [onStepStart] as in the source.  Over every
    sequence of events on a component with at least one active step, as
    many sounds are played as [onStepStart] is invoked, one per
    invocation, and every sound played is one of the three cues
    [lauraBreatheOut], [lauraBreatheIn] and [lauraHold]. *)
Theorem X8_one_known_cue_per_step_start (sts : list Step) (eT mT : Z)
    (evs : list Event) :
  activeSteps sts ≠ [] →
  ∃ t c',
    (c ← mount sts eT mT; run c evs) = (t, Some c') ∧
    length (sounds t) = length (onStepStart_calls t) ∧
    Forall (λ s, s ∈ ["lauraBreatheOut"; "lauraBreatheIn"; "lauraHold"]%string)
      (sounds t).
Proof.
  intros Hne. pose proof (nonempty_length _ Hne) as HN.
  destruct (run_in_range (mkComponent sts eT mT 0 Idle) evs)
    as (t & c' & Hr & _ & _ & _ & Hlen & Hall); [done|done|done|].
  exists (start showUpAnimation :: t), c'.
  rewrite mount_at by done. rewrite bind_returned, Hr.
  split_and!; done.
Qed.

Lemma X8_one_known_cue_per_step_start_witness :
  activeSteps [step_exhale; step_afterInhale] ≠ [] ∧
  ∃ t c',
    (c ← mount [step_exhale; step_afterInhale] 0 60000;
     run c [showUpCompleted true; stepCompleted 0 true; closePress])
      = (t, Some c') ∧
    length (sounds t) = length (onStepStart_calls t).
Proof.
  assert (H : activeSteps [step_exhale; step_afterInhale] ≠ [])
    by discriminate.
  split; [exact H|].
  destruct (X8_one_known_cue_per_step_start
              [step_exhale; step_afterInhale] 0 60000
              [showUpCompleted true; stepCompleted 0 true; closePress] H)
    as (t & c' & Hr & Hlen & _).
  exists t, c'. split; [exact Hr | exact Hlen].
Defined.

(** The sounds of a playback in which every animation runs to its end. *)
Lemma playback_sounds (c : Component) (k : nat) :
  (0 < length (activeSteps (steps c)))%nat →
  ∃ t c',
    run c (showUpCompleted true
             :: completions (length (activeSteps (steps c))) k) = (t, Some c') ∧
    Some <$> sounds t =
      (λ j, (λ x, spec_cue (id x)) <$>
              activeSteps (steps c)
                !! (j `mod` length (activeSteps (steps c)))%nat)
      <$> seq 0 (S k) ∧
    sequencer c' = PlayingStep (k `mod` length (activeSteps (steps c))) ∧
    steps c' = steps c.
Proof.
  intros HN. induction k as [|k IH].
  - destruct (with_sequencer_begin_step c 0 HN)
      as (t & c' & x & Hw & Hst & _ & Hseq & Hx & Hsnd & _).
    exists t, c'.
    change (run c (showUpCompleted true :: completions _ 0))
      with (c1 ← with_sequencer c (startAnimationSteps (steps c)); run c1 []).
    unfold startAnimationSteps, loop_start.
    rewrite Hw, bind_returned. simpl trace_of. simpl value_of.
    rewrite app_nil_r, Hsnd. cbn [seq fmap list_fmap].
    rewrite Nat.Div0.mod_0_l, Hx. done.
  - destruct IH as (t & c' & Hrun & Hsnd & Hs & Hst).
    set (N := length (activeSteps (steps c))) in *.
    assert (Hnext : (S k `mod` N < length (activeSteps (steps c')))%nat)
      by (rewrite Hst; apply Nat.mod_upper_bound; lia).
    destruct (with_sequencer_begin_step c' _ Hnext)
      as (t' & c'' & x & Hw & Hst' & _ & Hseq & Hx & Hsnd' & _).
    exists (t ++ t'), c''.
    rewrite completions_S, app_comm_cons, run_app, Hrun, bind_returned.
    change (run c' [stepCompleted (k `mod` N)%nat true])
      with (c1 ← handle c' (stepCompleted (k `mod` N)%nat true); run c1 []).
    assert (Hh : handle c' (stepCompleted (k `mod` N)%nat true) = (t', Some c'')).
    { cbn [handle]. unfold loop_completed. rewrite Hs.
      rewrite bool_decide_eq_true_2 by done. cbn [andb].
      rewrite createStepAnimations_length, Hst. fold N.
      rewrite Nat.Div0.add_mod_idemp_l, Nat.add_1_r.
      rewrite <- Hst. exact Hw. }
    rewrite Hh, bind_returned. simpl trace_of. simpl value_of.
    rewrite app_nil_r. split_and!; try done.
    + rewrite sounds_app, fmap_app, Hsnd, Hsnd'.
      rewrite (seq_S (S k)), fmap_app. f_equal.
      cbn [fmap list_fmap Nat.add]. rewrite <- Hst, Hx. done.
    + congruence.
Qed.

(** X9.  Modelled sequencer, [onStepStart] as in the source.  In a
    playback in which the entrance animation and then [k] step animations
    run to their end, exactly [k + 1] sounds are played, and the [j]-th
    sound is the cue of the id of active step [j mod N]: breathe-out for
    exhale, breathe-in for inhale, the hold cue for both holds. *)
Theorem X9_playback_plays_the_cue_of_each_step (sts : list Step) (eT mT : Z)
    (k : nat) :
  activeSteps sts ≠ [] →
  ∃ t c',
    (c ← mount sts eT mT;
     run c (showUpCompleted true :: completions (length (activeSteps sts)) k))
      = (t, Some c') ∧
    Some <$> sounds t =
      (λ j, (λ x, spec_cue (id x)) <$>
              activeSteps sts !! (j `mod` length (activeSteps sts))%nat)
      <$> seq 0 (S k) ∧
    length (sounds t) = S k.
Proof.
  intros Hne. pose proof (nonempty_length _ Hne) as HN.
  destruct (playback_sounds (mkComponent sts eT mT 0 Idle) k HN)
    as (t & c' & Hr & Hsnd & _). cbn [steps] in *.
  exists (start showUpAnimation :: t), c'.
  rewrite mount_at by done. rewrite bind_returned, Hr.
  split_and!; try done.
  change (sounds (trace_of _ ++ trace_of _)) with (sounds t) in *.
  apply (f_equal length) in Hsnd.
  by rewrite !length_fmap, length_seq in Hsnd.
Qed.

Lemma X9_playback_plays_the_cue_of_each_step_witness :
  activeSteps [step_inhale; step_afterInhale; step_exhale;
               step_afterExhale_skipped] ≠ [] ∧
  ∃ t c',
    (c ← mount [step_inhale; step_afterInhale; step_exhale;
                step_afterExhale_skipped] 0 60000;
     run c (showUpCompleted true :: completions 3 4)) = (t, Some c') ∧
    Some <$> sounds t =
      Some <$> [ "lauraBreatheIn"; "lauraHold"; "lauraBreatheOut";
                 "lauraBreatheIn"; "lauraHold" ]%string.
Proof.
  assert (H : activeSteps [step_inhale; step_afterInhale; step_exhale;
                           step_afterExhale_skipped] ≠ []) by discriminate.
  split; [exact H|].
  destruct (X9_playback_plays_the_cue_of_each_step
              [step_inhale; step_afterInhale; step_exhale;
               step_afterExhale_skipped] 0 60000 4 H)
    as (t & c' & Hr & Hsnd & _).
  exists t, c'. split; [exact Hr | exact Hsnd].
Defined.

(** ** Further properties of the interval hook *)

Module IntervalLifecycleFacts.
Import Interval IntervalLifecycle.
Section useInterval.
Context {Callback : Type}.
Implicit Types (h : Hook Callback) (cb : Callback).

Lemma live_timers_app (t1 t2 : list (TimerEffect Callback))
    (live : list (nat * Z)) :
  live_timers (t1 ++ t2) live = live_timers t2 (live_timers t1 live).
Proof.
  revert live. induction t1 as [|e t1 IH]; intros live; [done|].
  destruct e; simpl; apply IH.
Qed.

Lemma renders_snoc (args : list (Callback * option Z)) cb interval h :
  renders (args ++ [(cb, interval)]) h =
    ((render cb interval (renders args h).1).1,
     (renders args h).2 ++ (render cb interval (renders args h).1).2).
Proof.
  revert h. induction args as [|[cb0 i0] args IH]; intros h.
  - cbn [app renders fst snd]. destruct (render cb interval h) as [h1 t1].
    cbn [fst snd app]. by rewrite app_nil_r.
  - cbn [app renders fst snd]. destruct (render cb0 i0 h) as [h1 t1].
    rewrite IH. destruct (renders args h1) as [h2 t2]. cbn [fst snd].
    destruct (render cb interval h2) as [h3 t3]. cbn [fst snd].
    by rewrite app_assoc.
Qed.

(** What every render establishes, from a hook with no timer or with
    one: a single live timer, with the period asked for. *)
Lemma render_one_live_timer cb interval h (live : list (nat * Z)) :
  (registered h = None ∧ deps h = None ∧ live = []) ∨
  (∃ timer p, registered h = Some timer ∧ deps h = Some p ∧
              live = [(timer, p)]) →
  ∃ timer,
    registered (render cb interval h).1 = Some timer ∧
    deps (render cb interval h).1 = Some (default 1000 interval) ∧
    callbackRef_current (render cb interval h).1 = fn cb ∧
    live_timers (render cb interval h).2 live =
      [(timer, default 1000 interval)].
Proof.
  intros [(Hr & Hd & ->)|(timer & p & Hr & Hd & ->)]; unfold render;
    rewrite Hr, Hd.
  - rewrite bool_decide_eq_true_2 by done. by eexists.
  - case_bool_decide as Hp.
    + eexists. split_and!; try done. simpl.
      rewrite filter_cons_False by (simpl; tauto). done.
    + injection Hp as ->.
      exists timer. by split_and!.
Qed.

Lemma renders_one_live_timer (args : list (Callback * option Z)) cb interval :
  ∃ timer,
    registered (renders (args ++ [(cb, interval)]) init).1 = Some timer ∧
    deps (renders (args ++ [(cb, interval)]) init).1
      = Some (default 1000 interval) ∧
    callbackRef_current (renders (args ++ [(cb, interval)]) init).1 = fn cb ∧
    live_timers (renders (args ++ [(cb, interval)]) init).2 [] =
      [(timer, default 1000 interval)].
Proof.
  revert cb interval. induction args as [|[cb0 i0] args IH] using rev_ind;
    intros cb interval.
  - cbn [app renders]. destruct (render cb interval init) as [h1 t1] eqn:E.
    simpl. rewrite app_nil_r.
    destruct (render_one_live_timer cb interval init []) as (timer & H);
      [by left|]. rewrite E in H. by exists timer.
  - destruct (IH cb0 i0) as (timer0 & Hr & Hd & _ & Hl).
    rewrite renders_snoc. cbn [fst snd]. rewrite live_timers_app, Hl.
    apply render_one_live_timer. right. by eexists _, _.
Qed.

(** X10.  After the mount and any number of further renders, each with
    whatever callback and interval, exactly one timer is registered with
    the platform; its period is the interval of the last render, 1000 ms
    when that render passed none; its tick invokes the callback of the
    last render, once, and nothing else; and a timer that an earlier
    render registered and a later one cleared does nothing if it
    fires. *)
Theorem X10_one_live_timer_with_the_latest_callback
    (args : list (Callback * option Z)) cb (interval : option Z) :
  let h := (renders (args ++ [(cb, interval)]) init).1 in
  let t := (renders (args ++ [(cb, interval)]) init).2 in
  ∃ timer,
    registered h = Some timer ∧
    live_timers t [] = [(timer, default 1000 interval)] ∧
    fire timer h = Some [invoke cb] ∧
    (∀ timer', timer' ≠ timer → fire timer' h = Some []).
Proof.
  intros h t. subst h t.
  destruct (renders_one_live_timer args cb interval)
    as (timer & Hr & _ & Hc & Hl).
  exists timer. split_and!; try done.
  - unfold fire, tick. rewrite Hr, Hc.
    by rewrite bool_decide_eq_true_2.
  - intros timer' Hne. unfold fire. rewrite Hr.
    rewrite bool_decide_eq_false_2; [done|]. by intros [= ->].
Qed.

(** X11.  Unmounting clears the one timer the hook holds: after any
    renders and the unmount no timer is left registered with the
    platform, so every timer a render set has been cleared, and nothing
    is invoked whichever timer fires.  Unmounting again, or unmounting a
    hook that never ran its effects, clears nothing. *)
Theorem X11_unmount_leaves_no_timer
    (args : list (Callback * option Z)) cb (interval : option Z) :
  let r := renders (args ++ [(cb, interval)]) init in
  let u := unmount r.1 in
  ∃ timer,
    registered r.1 = Some timer ∧
    u.2 = [clearInterval timer] ∧
    live_timers (r.2 ++ u.2) [] = [] ∧
    registered u.1 = None ∧
    (∀ timer', fire timer' u.1 = Some []) ∧
    unmount u.1 = (u.1, []) ∧
    unmount (@init Callback) = (init, []).
Proof.
  intros r u. subst u r.
  destruct (renders_one_live_timer args cb interval)
    as (timer & Hr & _ & _ & Hl).
  assert (Hu : unmount (renders (args ++ [(cb, interval)]) init).1 =
                 (mkHook
                    (callbackRef_current (renders (args ++ [(cb, interval)]) init).1)
                    (deps (renders (args ++ [(cb, interval)]) init).1)
                    None
                    (next_timer (renders (args ++ [(cb, interval)]) init).1),
                  [clearInterval timer])).
  { unfold unmount. by rewrite Hr. }
  exists timer. rewrite Hu. cbn [fst snd].
  split_and!; try done.
  rewrite live_timers_app, Hl. simpl.
  by rewrite filter_cons_False by (simpl; tauto).
Qed.
End useInterval.
End IntervalLifecycleFacts.
